(** * SkipGram with negative sampling: a shallow embedding of src/skipgram.py

    Tensors are nested lists of reals (the values are read as exact reals,
    not as floats).  A tensor operation of the numeric library that checks
    shapes or indices returns a [result]; the errors are the library's own
    (the module raises none of its own).  Randomness is a finite
    distribution monad [Dist]; the module object a forward pass runs
    against is the state of the monad [M]. *)

From Stdlib Require Import Reals Lra Lia ZArith List Bool.
Import ListNotations.
Open Scope R_scope.

(** ** Errors raised by the numeric library *)

Inductive torch_error :=
| ShapeMismatch          (* incompatible tensor sizes *)
| IndexOutOfRange        (* an embedding index outside [0, num_embeddings) *)
| InvalidSampleCount     (* multinomial: "cannot sample n_sample <= 0 samples" *)
| TooManyCategories      (* multinomial: "number of categories cannot exceed 2^24" *)
| InvalidDistribution.   (* multinomial: negative entry or sum of probabilities <= 0 *)

Inductive result (A : Type) :=
| Ok : A -> result A
| Err : torch_error -> result A.
Arguments Ok {A} _.
Arguments Err {A} _.

Definition rbind {A B} (r : result A) (f : A -> result B) : result B :=
  match r with Ok a => f a | Err e => Err e end.

Notation "x <-? r ;; k" := (rbind r (fun x => k))
  (at level 61, r at next level, right associativity).

(** ** Tensor operations used by the loss *)

Fixpoint sum_list (l : list R) : R :=
  match l with [] => 0 | x :: l' => x + sum_list l' end.

Fixpoint zip_with {A B C} (f : A -> B -> C) (l1 : list A) (l2 : list B) : list C :=
  match l1, l2 with
  | x :: l1', y :: l2' => f x y :: zip_with f l1' l2'
  | _, _ => []
  end.

Fixpoint same_lengths {A B} (l1 : list (list A)) (l2 : list (list B)) : bool :=
  match l1, l2 with
  | [], [] => true
  | x :: l1', y :: l2' => Nat.eqb (length x) (length y) && same_lengths l1' l2'
  | _, _ => false
  end.

(** [a * b] on two (B, E) tensors (same sizes; broadcasting is not modelled). *)
Definition mul2 (a b : list (list R)) : result (list (list R)) :=
  if same_lengths a b then Ok (zip_with (zip_with Rmult) a b) else Err ShapeMismatch.

(** [torch.sum(x, dim=1)] on a 2-D tensor. *)
Definition sum_dim1 (x : list (list R)) : list R := map sum_list x.

(** A 3-D tensor: its data and the size of its last dimension (which the
    nested lists cannot show when a row is empty). *)
Record T3 := mkT3 { t3_last : nat; t3_data : list (list (list R)) }.

(** [x.unsqueeze(2)]: (B, E) -> (B, E, 1). *)
Definition unsqueeze2 (x : list (list R)) : T3 :=
  mkT3 1 (map (map (fun v => [v])) x).

(** [torch.bmm(a, b)]: (B, n, m) x (B, m, p) -> (B, n, p). *)
Definition bmm (a b : T3) : result T3 :=
  if Nat.eqb (length (t3_data a)) (length (t3_data b))
     && forallb (fun mat => Nat.eqb (length mat) (t3_last a)) (t3_data b)
  then Ok (mkT3 (t3_last b)
     (zip_with (fun A Bm =>
        map (fun row =>
          map (fun j =>
            sum_list (map (fun k => nth k row 0 * nth j (nth k Bm []) 0)
                          (seq 0 (t3_last a))))
              (seq 0 (t3_last b))) A)
        (t3_data a) (t3_data b)))
  else Err ShapeMismatch.

(** [x.squeeze(2)] read as a 2-D tensor.  A last size other than 1 would
    leave [x] 3-D, which this 2-D reading does not represent; [forward]
    only squeezes the result of a [bmm] against an unsqueezed operand, whose
    last size is 1. *)
Definition squeeze2 (x : T3) : result (list (list R)) :=
  if Nat.eqb (t3_last x) 1 then Ok (map (map (fun r => nth 0 r 0)) (t3_data x))
  else Err ShapeMismatch.

(** [a + b] on two 1-D tensors of the same length. *)
Definition add1 (a b : list R) : result (list R) :=
  if Nat.eqb (length a) (length b) then Ok (zip_with Rplus a b) else Err ShapeMismatch.

(** [torch.mean] of a 1-D tensor (the empty tensor, NaN in torch, is not
    represented: every statement below is about a batch of size >= 1). *)
Definition mean (x : list R) : R := sum_list x / INR (length x).

Definition sigmoid (x : R) : R := / (1 + exp (- x)).

(** The literal [1e-10]. *)
Definition eps : R := / 10 ^ 10.

(** ** NegativeSamplingLoss.forward *)

Module NegativeSamplingLoss.

(** [pos_scores = torch.sum(input_vectors * output_vectors, dim=1)] *)
Definition pos_scores_of (input_vectors output_vectors : list (list R)) : result (list R) :=
  prod <-? mul2 input_vectors output_vectors ;;
  Ok (sum_dim1 prod).

(** [neg_scores = torch.bmm(noise_vectors, input_vectors.unsqueeze(2)).squeeze(2)] *)
Definition neg_scores_of (noise_vectors : T3) (input_vectors : list (list R)) : result (list (list R)) :=
  b <-? bmm noise_vectors (unsqueeze2 input_vectors) ;;
  squeeze2 b.

(** [pos_loss = torch.log(torch.sigmoid(pos_scores) + 1e-10)] *)
Definition pos_loss_of (pos_scores : list R) : list R :=
  map (fun x => ln (sigmoid x + eps)) pos_scores.

(** [neg_loss = torch.sum(torch.log(torch.sigmoid(-neg_scores) + 1e-10), dim=1)] *)
Definition neg_loss_of (neg_scores : list (list R)) : list R :=
  sum_dim1 (map (map (fun x => ln (sigmoid (- x) + eps))) neg_scores).

Definition forward (input_vectors output_vectors : list (list R)) (noise_vectors : T3) : result R :=
  pos_scores <-? pos_scores_of input_vectors output_vectors ;;
  neg_scores <-? neg_scores_of noise_vectors input_vectors ;;
  let pos_loss := pos_loss_of pos_scores in
  let neg_loss := neg_loss_of neg_scores in
  total <-? add1 pos_loss neg_loss ;;
  Ok (- mean total).

End NegativeSamplingLoss.

(** ** Finite distributions (the library's random number generator) *)

Definition Dist (A : Type) := list (A * R).

Definition dret {A} (a : A) : Dist A := [(a, 1)].

Definition dbind {A B} (d : Dist A) (f : A -> Dist B) : Dist B :=
  flat_map (fun '(a, p) => map (fun '(b, q) => (b, p * q)) (f a)) d.

Definition dmap {A B} (f : A -> B) (d : Dist A) : Dist B :=
  map (fun '(a, p) => (f a, p)) d.

(** Probability of the outcome [a]. *)
Definition mass {A} (dec : forall x y : A, {x = y} + {x <> y}) (d : Dist A) (a : A) : R :=
  sum_list (map (fun '(b, p) => if dec a b then p else 0) d).

(** [n] independent draws from [d]. *)
Fixpoint draws {A} (n : nat) (d : Dist A) : Dist (list A) :=
  match n with
  | O => dret []
  | S n' => dbind d (fun i => dbind (draws n' d) (fun l => dret (i :: l)))
  end.

(** One draw of a category from unnormalised non-negative weights. *)
Definition categorical (w : list R) : Dist Z :=
  map (fun i => (Z.of_nat i, nth i w 0 / sum_list w)) (seq 0 (length w)).

Definition Rle0b (x : R) : bool := if Rle_dec 0 x then true else false.
Definition Rlt0b (x : R) : bool := if Rlt_dec 0 x then true else false.

(** [torch.multinomial(w, n_sample, replacement=True)], with the checks of
    the library in their order. *)
Definition multinomial (w : list R) (n_sample : Z) : Dist (result (list Z)) :=
  if (n_sample <=? 0)%Z then dret (Err InvalidSampleCount)
  else if (2 ^ 24 <? Z.of_nat (length w))%Z then dret (Err TooManyCategories)
  else if negb (forallb Rle0b w && Rlt0b (sum_list w)) then dret (Err InvalidDistribution)
  else dmap Ok (draws (Z.to_nat n_sample) (categorical w)).

(** [torch.ones(n)] *)
Definition ones (n : nat) : list R := repeat 1 n.

(** [nn.Embedding] applied to a 1-D tensor of indices. *)
Fixpoint embedding (weight : list (list R)) (idx : list Z) : result (list (list R)) :=
  match idx with
  | [] => Ok []
  | i :: idx' =>
      if ((0 <=? i) && (i <? Z.of_nat (length weight)))%Z then
        rows <-? embedding weight idx' ;;
        Ok (nth (Z.to_nat i) weight [] :: rows)
      else Err IndexOutOfRange
  end.

(** [x.view(a, b, c)] of a 2-D tensor [x] (row-major). *)
Definition view3 (x : list (list R)) (a b : Z) (c : nat) : result T3 :=
  let flat := concat x in
  if ((a <? 0) || (b <? 0))%Z then Err ShapeMismatch
  else if (Z.of_nat (length flat) =? a * b * Z.of_nat c)%Z then
    Ok (mkT3 c (map (fun i =>
                  map (fun j => firstn c (skipn ((i * Z.to_nat b + j) * c) flat))
                      (seq 0 (Z.to_nat b)))
                (seq 0 (Z.to_nat a))))
  else Err ShapeMismatch.

(** ** SkipGramNeg *)

Module SkipGramNeg.

(** The fields of the module object ([__init__] sets them; [nn.Embedding]
    rejects negative sizes, so the sizes are natural numbers). *)
Record self := mk_self {
  n_vocab : nat;
  n_embed : nat;
  noise_dist : option (list R);
  in_embed : list (list R);    (* in_embed.weight *)
  out_embed : list (list R)    (* out_embed.weight *)
}.

(** A computation run against the module object: a distribution of
    results paired with the object after the call. *)
Definition M (A : Type) := self -> Dist (result A * self).

Definition mret {A} (a : A) : M A := fun s => dret (Ok a, s).

Definition mbind {A B} (m : M A) (f : A -> M B) : M B :=
  fun s => dbind (m s) (fun '(r, s') =>
    match r with Ok a => f a s' | Err e => dret (Err e, s') end).

Definition get : M self := fun s => dret (Ok s, s).

Definition lift {A} (r : result A) : M A := fun s => dret (r, s).

Definition sample {A} (d : Dist (result A)) : M A :=
  fun s => dmap (fun r => (r, s)) d.

Notation "x <- m ;; k" := (mbind m (fun x => k))
  (at level 61, m at next level, right associativity).

Definition forward_input (input_words : list Z) : M (list (list R)) :=
  this <- get ;;
  input_vectors <- lift (embedding (in_embed this) input_words) ;;
  mret input_vectors.

Definition forward_output (output_words : list Z) : M (list (list R)) :=
  this <- get ;;
  output_vectors <- lift (embedding (out_embed this) output_words) ;;
  mret output_vectors.

(** The weights [forward_noise] samples from. *)
Definition noise_weights (this : self) : list R :=
  match noise_dist this with
  | None => ones (n_vocab this)
  | Some d => d
  end.

(** [.to(device)] moves data without changing values: it is the identity here. *)
Definition forward_noise (batch_size n_samples : Z) : M T3 :=
  this <- get ;;
  let noise_dist := noise_weights this in
  noise_words <- sample (multinomial noise_dist (batch_size * n_samples)) ;;
  rows <- lift (embedding (out_embed this) noise_words) ;;
  noise_vectors <- lift (view3 rows batch_size n_samples (n_embed this)) ;;
  mret noise_vectors.

End SkipGramNeg.

(** [NegativeSamplingLoss.forward] run next to the model object (the loss
    module has no fields). *)
Definition loss_forward_M (input_vectors output_vectors : list (list R)) (noise_vectors : T3)
  : SkipGramNeg.M R :=
  SkipGramNeg.lift (NegativeSamplingLoss.forward input_vectors output_vectors noise_vectors).

(** ** The closed form the spec states *)

(** [dot u v]: the dot product of two vectors of the same length. *)
Definition dot (u v : list R) : R :=
  sum_list (map (fun k => nth k u 0 * nth k v 0) (seq 0 (length u))).

(** Input sizes of [NegativeSamplingLoss.forward]: [input_vectors] and
    [output_vectors] of shape (B, E), [noise_vectors] of shape (B, n, E). *)
Definition loss_shapes (B E : nat) (input_vectors output_vectors : list (list R))
    (noise_vectors : T3) : Prop :=
  length input_vectors = B /\ length output_vectors = B /\
  Forall (fun r => length r = E) input_vectors /\
  Forall (fun r => length r = E) output_vectors /\
  t3_last noise_vectors = E /\ length (t3_data noise_vectors) = B /\
  Forall (Forall (fun r => length r = E)) (t3_data noise_vectors).

(** The negative-sampling loss written from the spec: minus the batch mean
    of [log(sigmoid(in.out) + 1e-10) + sum_s log(sigmoid(-(noise_s.in)) + 1e-10)]. *)
Definition ns_loss_closed (input_vectors output_vectors : list (list R))
    (noise : list (list (list R))) : R :=
  - mean (map (fun b =>
       ln (sigmoid (dot (nth b input_vectors []) (nth b output_vectors [])) + eps)
       + sum_list (map (fun v => ln (sigmoid (- dot v (nth b input_vectors [])) + eps))
                       (nth b noise [])))
     (seq 0 (length input_vectors))).

(** The tensor the spec describes for a draw [noise_words] of
    [batch_size * n_samples] indices: slice [b][s] is the row of [out_embed]
    at the index drawn in position [b * n_samples + s]. *)
Definition noise_layout (this : SkipGramNeg.self) (batch_size n_samples : nat)
    (noise_words : list Z) : T3 :=
  mkT3 (SkipGramNeg.n_embed this)
    (map (fun b =>
            map (fun s => nth (Z.to_nat (nth (b * n_samples + s) noise_words 0%Z))
                              (SkipGramNeg.out_embed this) [])
                (seq 0 n_samples))
         (seq 0 batch_size)).

(** ** Lemmas on lists and tensors *)

Lemma nth_map_lt {A B} (f : A -> B) (l : list A) (n : nat) (d : A) (d' : B) :
  (n < length l)%nat -> nth n (map f l) d' = f (nth n l d).
Proof.
  intro H. rewrite (nth_indep (map f l) d' (f d)) by (rewrite length_map; exact H).
  apply map_nth.
Qed.

Lemma zip_with_seq {A B C} (f : A -> B -> C) (l1 : list A) (l2 : list B) d1 d2 :
  length l1 = length l2 ->
  zip_with f l1 l2 = map (fun b => f (nth b l1 d1) (nth b l2 d2)) (seq 0 (length l1)).
Proof.
  revert l2. induction l1 as [|x l1 IH]; intros [|y l2] H; simpl in *; try lia; auto.
  f_equal. rewrite (IH l2) by lia. rewrite <- seq_shift, map_map. reflexivity.
Qed.

Lemma sum_list_app (l1 l2 : list R) : sum_list (l1 ++ l2) = sum_list l1 + sum_list l2.
Proof. induction l1; simpl; [ring | rewrite IHl1; ring]. Qed.

Lemma sum_zip_dot (u v : list R) :
  length u = length v -> sum_list (zip_with Rmult u v) = dot u v.
Proof.
  unfold dot. revert v. induction u as [|x u IH]; intros [|y v] H; simpl in *; try lia.
  - reflexivity.
  - rewrite (IH v) by lia. rewrite <- seq_shift, map_map. reflexivity.
Qed.

Lemma same_lengths_true {A B} (E : nat) (l1 : list (list A)) (l2 : list (list B)) :
  length l1 = length l2 -> Forall (fun r => length r = E) l1 ->
  Forall (fun r => length r = E) l2 -> same_lengths l1 l2 = true.
Proof.
  revert l2. induction l1 as [|x l1 IH]; intros [|y l2] H F1 F2; simpl in *; try lia; auto.
  inversion F1; inversion F2; subst. apply andb_true_intro; split.
  - apply Nat.eqb_eq. congruence.
  - apply IH; auto.
Qed.

Lemma Forall_nth_len {A} (E : nat) (l : list (list A)) (b : nat) :
  Forall (fun r => length r = E) l -> (b < length l)%nat -> length (nth b l []) = E.
Proof.
  intros F H. rewrite Forall_forall in F. apply F, nth_In, H.
Qed.

(** ** The loss, stage by stage *)

Section Loss.
Variables (B E : nat) (input_vectors output_vectors : list (list R)) (noise_vectors : T3).
Hypothesis Hshape : loss_shapes B E input_vectors output_vectors noise_vectors.

Lemma pos_scores_dot :
  NegativeSamplingLoss.pos_scores_of input_vectors output_vectors
  = Ok (map (fun b => dot (nth b input_vectors []) (nth b output_vectors [])) (seq 0 B)).
Proof.
  destruct Hshape as (Hi & Ho & Fi & Fo & _).
  unfold NegativeSamplingLoss.pos_scores_of, mul2.
  rewrite (same_lengths_true E) by (auto; lia). simpl. f_equal.
  unfold sum_dim1. rewrite (zip_with_seq _ _ _ [] []) by lia. rewrite map_map, Hi.
  apply map_ext_in. intros b Hb. apply in_seq in Hb.
  apply sum_zip_dot. rewrite (Forall_nth_len E), (Forall_nth_len E); auto; lia.
Qed.

Lemma neg_scores_dot :
  NegativeSamplingLoss.neg_scores_of noise_vectors input_vectors
  = Ok (map (fun b => map (fun v => dot v (nth b input_vectors []))
                          (nth b (t3_data noise_vectors) []))
            (seq 0 B)).
Proof.
  destruct Hshape as (Hi & _ & Fi & _ & Hl & Hn & Fn).
  destruct noise_vectors as [last data]; simpl in *; subst last.
  unfold NegativeSamplingLoss.neg_scores_of, bmm, unsqueeze2; simpl.
  rewrite length_map, Hn, Hi, Nat.eqb_refl. simpl.
  replace (forallb _ _) with true.
  2:{ symmetry. apply forallb_forall. intros mat Hm. apply in_map_iff in Hm.
      destruct Hm as (r & <- & Hr). rewrite length_map. rewrite Forall_forall in Fi.
      rewrite Fi by exact Hr. apply Nat.eqb_refl. }
  simpl. unfold squeeze2; simpl. f_equal.
  rewrite (zip_with_seq _ _ _ [] []) by (rewrite length_map; lia).
  rewrite map_map, Hn. apply map_ext_in. intros b Hb. apply in_seq in Hb.
  rewrite map_map.
  rewrite (nth_map_lt _ _ _ []) by lia.
  apply map_ext_in. intros row Hrow. simpl.
  assert (Lrow : length row = E).
  { rewrite Forall_forall in Fn.
    assert (Hb' : (b < length data)%nat) by lia.
    specialize (Fn _ (nth_In _ [] Hb')).
    rewrite Forall_forall in Fn. apply Fn, Hrow. }
  assert (Lin : length (nth b input_vectors []) = E) by (apply Forall_nth_len; auto; lia).
  unfold dot. rewrite Lrow. f_equal.
  apply map_ext_in. intros k Hk. apply in_seq in Hk.
  rewrite (nth_map_lt _ _ _ 0) by lia. reflexivity.
Qed.

End Loss.

Lemma forward_from_scores (input_vectors output_vectors : list (list R)) (noise_vectors : T3)
    (B : nat) (ps : list R) (ns : list (list R)) :
  NegativeSamplingLoss.pos_scores_of input_vectors output_vectors = Ok ps ->
  NegativeSamplingLoss.neg_scores_of noise_vectors input_vectors = Ok ns ->
  length ps = B -> length ns = B ->
  NegativeSamplingLoss.forward input_vectors output_vectors noise_vectors
  = Ok (- mean (map (fun b => ln (sigmoid (nth b ps 0) + eps)
                     + sum_list (map (fun x => ln (sigmoid (- x) + eps)) (nth b ns [])))
                  (seq 0 B))).
Proof.
  intros Hp Hn Lp Ln.
  unfold NegativeSamplingLoss.forward. rewrite Hp, Hn. simpl.
  unfold add1, NegativeSamplingLoss.pos_loss_of, NegativeSamplingLoss.neg_loss_of, sum_dim1.
  rewrite !length_map, Lp, Ln, Nat.eqb_refl. simpl.
  rewrite (zip_with_seq _ _ _ 0 0) by (rewrite !length_map; lia).
  rewrite length_map, Lp. do 3 f_equal.
  apply map_ext_in. intros b Hb. apply in_seq in Hb.
  rewrite (nth_map_lt _ _ _ 0) by lia.
  rewrite (nth_map_lt _ _ _ []) by (rewrite length_map; lia).
  rewrite (nth_map_lt _ _ _ []) by lia. reflexivity.
Qed.

(** ** Claims on NegativeSamplingLoss.forward *)

(** C3: with [input_vectors], [output_vectors] of shape (B, E) and
    [noise_vectors] of shape (B, n, E), [pos_scores[b]] is the dot product
    of [input_vectors[b]] and [output_vectors[b]], [neg_scores[b][s]] the dot
    product of [noise_vectors[b][s]] and [input_vectors[b]]; the loss takes
    [sigmoid] of each positive score and of the negation of each negative
    score. *)
Theorem loss_scores_and_signs (B E : nat) (input_vectors output_vectors : list (list R))
    (noise_vectors : T3) :
  loss_shapes B E input_vectors output_vectors noise_vectors ->
  exists ps ns,
    NegativeSamplingLoss.pos_scores_of input_vectors output_vectors = Ok ps /\
    NegativeSamplingLoss.neg_scores_of noise_vectors input_vectors = Ok ns /\
    length ps = B /\ length ns = B /\
    (forall b, (b < B)%nat ->
       nth b ps 0 = dot (nth b input_vectors []) (nth b output_vectors []) /\
       length (nth b ns []) = length (nth b (t3_data noise_vectors) []) /\
       forall s, (s < length (nth b (t3_data noise_vectors) []))%nat ->
         nth s (nth b ns []) 0
         = dot (nth s (nth b (t3_data noise_vectors) []) []) (nth b input_vectors [])) /\
    NegativeSamplingLoss.forward input_vectors output_vectors noise_vectors
    = Ok (- mean (map (fun b => ln (sigmoid (nth b ps 0) + eps)
                       + sum_list (map (fun x => ln (sigmoid (- x) + eps)) (nth b ns [])))
                    (seq 0 B))).
Proof.
  intro Hs.
  eexists; eexists; split; [apply (pos_scores_dot B E _ _ noise_vectors Hs) |].
  split; [apply (neg_scores_dot B E _ output_vectors _ Hs) |].
  split; [rewrite length_map, length_seq; reflexivity |].
  split; [rewrite length_map, length_seq; reflexivity |].
  split.
  - intros b Hb.
    rewrite (nth_map_lt _ _ _ 0%nat) by (rewrite length_seq; lia).
    rewrite (nth_map_lt _ _ _ 0%nat []) by (rewrite length_seq; lia).
    rewrite seq_nth by lia. simpl. split; [reflexivity | split].
    + apply length_map.
    + intros s Hs'. rewrite (nth_map_lt _ _ _ []) by lia. reflexivity.
  - apply forward_from_scores;
      [apply (pos_scores_dot B E _ _ noise_vectors Hs)
      | apply (neg_scores_dot B E _ output_vectors _ Hs)
      | rewrite length_map, length_seq; reflexivity
      | rewrite length_map, length_seq; reflexivity].
Qed.

(** C1: for a batch of size B >= 1 of inputs of shapes (B, E), (B, E) and
    (B, n, E), [NegativeSamplingLoss.forward] returns the closed-form
    negative-sampling loss [ns_loss_closed]. *)
Theorem loss_closed_form (B E : nat) (input_vectors output_vectors : list (list R))
    (noise_vectors : T3) :
  (1 <= B)%nat ->
  loss_shapes B E input_vectors output_vectors noise_vectors ->
  NegativeSamplingLoss.forward input_vectors output_vectors noise_vectors
  = Ok (ns_loss_closed input_vectors output_vectors (t3_data noise_vectors)).
Proof.
  intros _ Hs.
  rewrite (forward_from_scores _ _ _ B _ _ (pos_scores_dot B E _ _ noise_vectors Hs)
             (neg_scores_dot B E _ output_vectors _ Hs))
    by (rewrite length_map, length_seq; reflexivity).
  unfold ns_loss_closed. destruct Hs as (Hi & _). rewrite Hi.
  do 3 f_equal. apply map_ext_in. intros b Hb. apply in_seq in Hb.
  rewrite (nth_map_lt _ _ _ 0%nat) by (rewrite length_seq; lia).
  rewrite (nth_map_lt _ _ _ 0%nat []) by (rewrite length_seq; lia).
  rewrite seq_nth by lia. simpl. rewrite map_map. reflexivity.
Qed.

Lemma sigmoid_pos (x : R) : 0 < sigmoid x.
Proof. unfold sigmoid. apply Rinv_0_lt_compat. pose proof (exp_pos (- x)). lra. Qed.

Lemma eps_pos : 0 < eps.
Proof. unfold eps. apply Rinv_0_lt_compat, pow_lt. lra. Qed.

(** C2, as stated, fails: the term the loss takes for a score [x] is
    [log(sigmoid(x) + 1e-10)], which differs from [log(sigmoid(x))]
    (here at [x = 0]). *)
Lemma log_sigmoid_term_not_exact :
  ~ (forall x : R, NegativeSamplingLoss.pos_loss_of [x] = [ln (sigmoid x)]).
Proof.
  intro H. specialize (H 0). unfold NegativeSamplingLoss.pos_loss_of in H. simpl in H.
  injection H as H.
  pose proof (sigmoid_pos 0) as Hs. pose proof eps_pos as He.
  apply ln_inv in H; lra.
Qed.

(** C2 (amended): for every score [x], the positive term is
    [log(sigmoid(x) + 1e-10)] and the negative term [log(sigmoid(-x) + 1e-10)];
    such a term is strictly greater than [log(sigmoid(x))] and than [log(1e-10)]. *)
Theorem log_sigmoid_term_shifted (x : R) :
  NegativeSamplingLoss.pos_loss_of [x] = [ln (sigmoid x + eps)] /\
  NegativeSamplingLoss.neg_loss_of [[x]] = [ln (sigmoid (- x) + eps)] /\
  ln (sigmoid x) < ln (sigmoid x + eps) /\
  ln eps < ln (sigmoid x + eps).
Proof.
  pose proof (sigmoid_pos x) as Hs. pose proof eps_pos as He.
  split; [reflexivity |].
  split; [unfold NegativeSamplingLoss.neg_loss_of, sum_dim1; simpl; f_equal; ring |].
  split; apply ln_increasing; lra.
Qed.

(** ** Distributions: masses and supports *)

Definition prod_list (l : list R) : R := fold_right Rmult 1 l.

Definition res_dec : forall x y : result (list Z), {x = y} + {x <> y}.
Proof. decide equality; [apply list_eq_dec, Z.eq_dec | decide equality]. Defined.

Section Mass.
Context {A : Type} (dec : forall x y : A, {x = y} + {x <> y}).

Lemma mass_app (d1 d2 : Dist A) (a : A) :
  mass dec (d1 ++ d2) a = mass dec d1 a + mass dec d2 a.
Proof. unfold mass. rewrite map_app, sum_list_app. reflexivity. Qed.

Lemma mass_scale (d : Dist A) (p : R) (a : A) :
  mass dec (map (fun '(b, q) => (b, p * q)) d) a = p * mass dec d a.
Proof.
  unfold mass. induction d as [|[b q] d IH]; simpl; [ring |].
  rewrite IH. destruct (dec a b); ring.
Qed.

Lemma mass_dbind {C} (d : Dist C) (f : C -> Dist A) (a : A) :
  mass dec (dbind d f) a = sum_list (map (fun '(c, p) => p * mass dec (f c) a) d).
Proof.
  induction d as [|[c p] d IH]; [reflexivity |].
  unfold dbind in *. simpl flat_map. rewrite mass_app, mass_scale, IH. reflexivity.
Qed.

Lemma mass_dret (a b : A) : mass dec (dret a) b = if dec b a then 1 else 0.
Proof. unfold mass, dret. simpl. destruct (dec b a); ring. Qed.

End Mass.

Lemma In_dbind {A C} (d : Dist C) (f : C -> Dist A) (a : A) (q : R) :
  In (a, q) (dbind d f) -> exists c p q', In (c, p) d /\ In (a, q') (f c) /\ q = p * q'.
Proof.
  unfold dbind. intro H. apply in_flat_map in H. destruct H as ([c p] & Hc & H).
  apply in_map_iff in H. destruct H as ([a' q'] & He & Ha). injection He as <- <-.
  exists c, p, q'. auto.
Qed.

Section Draws.
Context {A : Type} (dec : forall x y : A, {x = y} + {x <> y}).

Lemma mass_cons_bind (e : Dist (list A)) (i : A) (l : list A) :
  mass (list_eq_dec dec) (dbind e (fun l' => dret (i :: l'))) l
  = match l with
    | [] => 0
    | x :: l'' => if dec x i then mass (list_eq_dec dec) e l'' else 0
    end.
Proof.
  rewrite mass_dbind. destruct l as [|x l''].
  - induction e as [|[l' q] e IH]; simpl; [reflexivity |].
    rewrite IH, mass_dret. destruct (list_eq_dec dec [] (i :: l')); [discriminate | ring].
  - destruct (dec x i) as [->|Hne].
    + unfold mass at 2. induction e as [|[l' q] e IH]; simpl; [reflexivity |].
      rewrite IH, mass_dret.
      destruct (list_eq_dec dec (i :: l'') (i :: l')) as [Heq|Hne];
        destruct (list_eq_dec dec l'' l') as [Heq'|Hne'].
      * ring.
      * injection Heq; congruence.
      * subst; congruence.
      * ring.
    + induction e as [|[l' q] e IH]; simpl; [reflexivity |].
      rewrite IH, mass_dret.
      destruct (list_eq_dec dec (x :: l'') (i :: l')) as [Heq|_];
        [injection Heq; congruence | ring].
Qed.

Lemma mass_pick (d : Dist A) (x : A) (m : R) :
  sum_list (map (fun '(c, p) => p * (if dec x c then m else 0)) d) = mass dec d x * m.
Proof.
  unfold mass. induction d as [|[c p] d IH]; simpl; [ring |].
  rewrite IH. destruct (dec x c); ring.
Qed.

(** [draws n d] gives each list of length [n] the product of the masses
    of its entries: the draws are independent. *)
Lemma mass_draws (n : nat) (d : Dist A) (l : list A) :
  mass (list_eq_dec dec) (draws n d) l
  = (if Nat.eqb (length l) n then 1 else 0) * prod_list (map (mass dec d) l).
Proof.
  revert l. induction n as [|n IH]; intro l.
  - simpl. rewrite mass_dret. destruct l; simpl.
    + destruct (list_eq_dec dec [] []); [ring | congruence].
    + destruct (list_eq_dec dec (a :: l) []); [discriminate | ring].
  - simpl draws. rewrite mass_dbind.
    transitivity (sum_list (map (fun '(c, p) => p *
        match l with [] => 0 | x :: l'' => if dec x c then mass (list_eq_dec dec) (draws n d) l'' else 0 end) d)).
    { f_equal. apply map_ext. intros [c p]. rewrite mass_cons_bind. reflexivity. }
    destruct l as [|x l''].
    + simpl. clear IH. induction d as [|[c p] d IHd]; simpl; [ring | rewrite IHd; ring].
    + rewrite mass_pick, IH. simpl. ring.
Qed.


Lemma In_draws (n : nat) (d : Dist A) (l : list A) (q : R) :
  In (l, q) (draws n d) -> length l = n /\ forall x, In x l -> exists p, In (x, p) d.
Proof.
  revert l q. induction n as [|n IH]; intros l q H; simpl in H.
  - destruct H as [H|[]]. injection H as <- _. split; [reflexivity | intros x []].
  - apply In_dbind in H. destruct H as (i & p & q1 & Hi & H & _).
    apply In_dbind in H. destruct H as (l' & p' & q2 & Hl' & H & _).
    destruct H as [H|[]]. injection H as <- _.
    destruct (IH _ _ Hl') as [Hlen Hall]. split; [simpl; lia |].
    intros x [<-|Hx]; [exists p; exact Hi | apply Hall, Hx].
Qed.

End Draws.

Lemma mass_dmap_Ok (d : Dist (list Z)) (ws : list Z) :
  mass res_dec (dmap Ok d) (Ok ws) = mass (list_eq_dec Z.eq_dec) d ws.
Proof.
  unfold mass, dmap. induction d as [|[l p] d IH]; [reflexivity |].
  simpl. f_equal; [| exact IH]. destruct (res_dec (Ok ws) (Ok l)) as [H|H];
    destruct (list_eq_dec Z.eq_dec ws l) as [H'|H']; try reflexivity.
  all: first [injection H; congruence | subst; congruence].
Qed.

Lemma mass_seq_hit (f : nat -> R) (x : Z) (a n : nat) :
  sum_list (map (fun '(b, p) => if Z.eq_dec x b then p else 0)
                (map (fun i => (Z.of_nat i, f i)) (seq a n)))
  = if ((Z.of_nat a <=? x) && (x <? Z.of_nat (a + n)))%Z then f (Z.to_nat x) else 0.
Proof.
  revert a. induction n as [|n IH]; intro a; simpl.
  - rewrite Nat.add_0_r. destruct ((Z.of_nat a <=? x) && (x <? Z.of_nat a))%Z eqn:E; [|reflexivity].
    apply andb_true_iff in E. destruct E as [E1 E2]. apply Z.leb_le in E1. apply Z.ltb_lt in E2. lia.
  - rewrite IH. rewrite Nat.add_succ_r.
    destruct (Z.eq_dec x (Z.of_nat a)) as [->|Hne].
    + rewrite Nat2Z.id.
      replace ((Z.of_nat (S a) <=? Z.of_nat a) && _)%Z with false
        by (symmetry; apply andb_false_iff; left; apply Z.leb_gt; lia).
      replace ((Z.of_nat a <=? Z.of_nat a) && (Z.of_nat a <? Z.of_nat (S (a + n))))%Z with true
        by (symmetry; apply andb_true_iff; split; [apply Z.leb_le | apply Z.ltb_lt]; lia).
      ring.
    + rewrite Rplus_0_l.
      destruct (Z.of_nat (S a) <=? x)%Z eqn:E1; destruct (Z.of_nat a <=? x)%Z eqn:E2;
        destruct (x <? Z.of_nat (S a + n))%Z eqn:E3; destruct (x <? Z.of_nat (S (a + n)))%Z eqn:E4;
        simpl; try reflexivity;
        rewrite ?Z.leb_le, ?Z.leb_gt, ?Z.ltb_lt, ?Z.ltb_ge in *; lia.
Qed.

Lemma mass_categorical (w : list R) (x : Z) :
  mass Z.eq_dec (categorical w) x
  = if ((0 <=? x) && (x <? Z.of_nat (length w)))%Z then nth (Z.to_nat x) w 0 / sum_list w else 0.
Proof. unfold mass, categorical. apply (mass_seq_hit (fun i => nth i w 0 / sum_list w) x 0). Qed.

Lemma In_categorical (w : list R) (x : Z) (p : R) :
  In (x, p) (categorical w) -> (0 <= x < Z.of_nat (length w))%Z.
Proof.
  unfold categorical. intro H. apply in_map_iff in H. destruct H as (i & He & Hi).
  injection He as <- _. apply in_seq in Hi. lia.
Qed.

(** ** forward_noise: a multinomial draw, then a deterministic lookup *)

(** The part of [forward_noise] after [torch.multinomial]: the rows of
    [out_embed] at the drawn indices, viewed as (batch_size, n_samples, n_embed). *)
Definition noise_vectors_of (this : SkipGramNeg.self) (batch_size n_samples : Z)
    (noise_words : list Z) : result T3 :=
  rows <-? embedding (SkipGramNeg.out_embed this) noise_words ;;
  view3 rows batch_size n_samples (SkipGramNeg.n_embed this).

Lemma forward_noise_split (this : SkipGramNeg.self) (batch_size n_samples : Z) :
  SkipGramNeg.forward_noise batch_size n_samples this
  = dmap (fun r => (rbind r (noise_vectors_of this batch_size n_samples), this))
         (multinomial (SkipGramNeg.noise_weights this) (batch_size * n_samples)).
Proof.
  unfold SkipGramNeg.forward_noise, SkipGramNeg.mbind, SkipGramNeg.get, SkipGramNeg.sample,
    SkipGramNeg.lift, SkipGramNeg.mret, noise_vectors_of.
  unfold dbind at 1, dret at 1. simpl flat_map. rewrite app_nil_r.
  generalize (multinomial (SkipGramNeg.noise_weights this) (batch_size * n_samples)) as d.
  induction d as [|[r p] d IH]; [reflexivity |].
  simpl. rewrite map_app. simpl.
  destruct r as [ws|e]; simpl.
  - destruct (embedding (SkipGramNeg.out_embed this) ws) as [rows|e]; simpl.
    + destruct (view3 rows batch_size n_samples (SkipGramNeg.n_embed this)) as [t|e]; simpl;
        rewrite IH; repeat f_equal; ring.
    + rewrite IH; repeat f_equal; ring.
  - rewrite IH; repeat f_equal; ring.
Qed.

(** The weights pass the checks of [torch.multinomial]. *)
Definition valid_weights (w : list R) : Prop :=
  Forall (fun x => 0 <= x) w /\ 0 < sum_list w /\ (Z.of_nat (length w) <= 2 ^ 24)%Z.

Lemma multinomial_valid (w : list R) (k : Z) :
  (0 < k)%Z -> valid_weights w ->
  multinomial w k = dmap Ok (draws (Z.to_nat k) (categorical w)).
Proof.
  intros Hk (Hnn & Hs & Hl). unfold multinomial.
  replace (k <=? 0)%Z with false by (symmetry; apply Z.leb_gt; lia).
  replace (2 ^ 24 <? Z.of_nat (length w))%Z with false by (symmetry; apply Z.ltb_ge; lia).
  replace (forallb Rle0b w && Rlt0b (sum_list w)) with true; [reflexivity |].
  symmetry. apply andb_true_iff. split.
  - apply forallb_forall. rewrite Forall_forall in Hnn. intros x Hx.
    unfold Rle0b. destruct (Rle_dec 0 x); [reflexivity | exfalso; auto].
  - unfold Rlt0b. destruct (Rlt_dec 0 (sum_list w)); [reflexivity | contradiction].
Qed.

Lemma mass_multinomial (w : list R) (k : Z) (ws : list Z) :
  (0 < k)%Z -> valid_weights w ->
  mass res_dec (multinomial w k) (Ok ws)
  = (if Nat.eqb (length ws) (Z.to_nat k) then 1 else 0)
    * prod_list (map (fun x => if ((0 <=? x) && (x <? Z.of_nat (length w)))%Z
                               then nth (Z.to_nat x) w 0 / sum_list w else 0) ws).
Proof.
  intros Hk Hv. rewrite multinomial_valid by assumption.
  rewrite mass_dmap_Ok, mass_draws. f_equal. f_equal.
  apply map_ext. intro x. apply mass_categorical.
Qed.

(** ** Claims on SkipGramNeg.forward_noise *)

(** C4: [forward_noise batch_size n_samples] draws [batch_size * n_samples]
    indices with [torch.multinomial(noise_dist, ., replacement=True)] and
    looks their rows up; when the library accepts the draw, every sequence
    of indices of that length has the product of the normalised weights of
    its entries as probability: independent draws, with replacement, from
    [noise_dist]. *)
Theorem forward_noise_draws_with_replacement (this : SkipGramNeg.self) (batch_size n_samples : Z) :
  (0 < batch_size * n_samples)%Z ->
  valid_weights (SkipGramNeg.noise_weights this) ->
  SkipGramNeg.forward_noise batch_size n_samples this
  = dmap (fun r => (rbind r (noise_vectors_of this batch_size n_samples), this))
         (multinomial (SkipGramNeg.noise_weights this) (batch_size * n_samples)) /\
  forall noise_words : list Z,
    mass res_dec (multinomial (SkipGramNeg.noise_weights this) (batch_size * n_samples))
         (Ok noise_words)
    = (if Nat.eqb (length noise_words) (Z.to_nat (batch_size * n_samples)) then 1 else 0)
      * prod_list (map (fun x =>
          if ((0 <=? x) && (x <? Z.of_nat (length (SkipGramNeg.noise_weights this))))%Z
          then nth (Z.to_nat x) (SkipGramNeg.noise_weights this) 0
               / sum_list (SkipGramNeg.noise_weights this)
          else 0) noise_words).
Proof.
  intros Hk Hv. split; [apply forward_noise_split |].
  intro ws. apply mass_multinomial; assumption.
Qed.

Lemma sum_list_ones (n : nat) : sum_list (ones n) = INR n.
Proof.
  unfold ones. induction n as [|n IH]; [reflexivity |].
  rewrite S_INR. simpl repeat. simpl sum_list. rewrite IH. ring.
Qed.

Lemma nth_ones (n i : nat) : (i < n)%nat -> nth i (ones n) 0 = 1.
Proof.
  unfold ones. revert i. induction n as [|n IH]; intros i Hi; [lia |].
  destruct i; simpl; [reflexivity | apply IH; lia].
Qed.

(** C9: for a model built with [noise_dist = None] (and a vocabulary of
    1 to 2^24 words), [forward_noise] samples from [torch.ones(n_vocab)]:
    every sequence of [batch_size * n_samples] indices in [0, n_vocab) has
    probability [(1 / n_vocab) ^ (batch_size * n_samples)], so each draw is
    uniform over the vocabulary. *)
Theorem forward_noise_uniform_default (this : SkipGramNeg.self) (batch_size n_samples : Z) :
  SkipGramNeg.noise_dist this = None ->
  (1 <= SkipGramNeg.n_vocab this)%nat ->
  (Z.of_nat (SkipGramNeg.n_vocab this) <= 2 ^ 24)%Z ->
  (0 < batch_size * n_samples)%Z ->
  SkipGramNeg.noise_weights this = ones (SkipGramNeg.n_vocab this) /\
  SkipGramNeg.forward_noise batch_size n_samples this
  = dmap (fun r => (rbind r (noise_vectors_of this batch_size n_samples), this))
         (multinomial (ones (SkipGramNeg.n_vocab this)) (batch_size * n_samples)) /\
  forall noise_words : list Z,
    length noise_words = Z.to_nat (batch_size * n_samples) ->
    Forall (fun x => 0 <= x < Z.of_nat (SkipGramNeg.n_vocab this))%Z noise_words ->
    mass res_dec (multinomial (ones (SkipGramNeg.n_vocab this)) (batch_size * n_samples))
         (Ok noise_words)
    = (/ INR (SkipGramNeg.n_vocab this)) ^ length noise_words.
Proof.
  intros Hnd Hn1 Hn2 Hk.
  assert (Hw : SkipGramNeg.noise_weights this = ones (SkipGramNeg.n_vocab this))
    by (unfold SkipGramNeg.noise_weights; rewrite Hnd; reflexivity).
  split; [exact Hw |]. split; [rewrite forward_noise_split, Hw; reflexivity |].
  set (n := SkipGramNeg.n_vocab this) in *.
  assert (Hpos : 0 < INR n) by (apply lt_0_INR; lia).
  intros ws Hlen Hall.
  rewrite mass_multinomial; [| exact Hk |].
  2:{ unfold valid_weights, ones. rewrite repeat_length, sum_list_ones. split; [| split; [exact Hpos | exact Hn2]].
      apply Forall_forall. intros x Hx. apply repeat_spec in Hx. lra. }
  rewrite Hlen, Nat.eqb_refl, Rmult_1_l. rewrite <- Hlen. clear Hlen.
  induction Hall as [|x ws Hx Hall IH]; [reflexivity |].
  simpl. rewrite IH. unfold ones at 1. rewrite repeat_length.
  replace ((0 <=? x) && (x <? Z.of_nat n))%Z with true
    by (symmetry; apply andb_true_iff; split; [apply Z.leb_le | apply Z.ltb_lt]; lia).
  rewrite nth_ones by lia. rewrite sum_list_ones. field. lra.
Qed.

(** ** Lookup and view *)

Lemma embedding_in_range (weight : list (list R)) (idx : list Z) :
  Forall (fun i => 0 <= i < Z.of_nat (length weight))%Z idx ->
  embedding weight idx = Ok (map (fun i => nth (Z.to_nat i) weight []) idx).
Proof.
  induction 1 as [|i idx Hi _ IH]; [reflexivity |].
  simpl. replace ((0 <=? i) && (i <? Z.of_nat (length weight)))%Z with true
    by (symmetry; apply andb_true_iff; split; [apply Z.leb_le | apply Z.ltb_lt]; lia).
  rewrite IH. reflexivity.
Qed.

Lemma embedding_ok (weight : list (list R)) (idx : list Z) (rows : list (list R)) :
  embedding weight idx = Ok rows ->
  rows = map (fun i => nth (Z.to_nat i) weight []) idx /\
  Forall (fun i => 0 <= i < Z.of_nat (length weight))%Z idx.
Proof.
  revert rows. induction idx as [|i idx IH]; intros rows H; simpl in H.
  - injection H as <-. auto.
  - destruct ((0 <=? i) && (i <? Z.of_nat (length weight)))%Z eqn:E; [| discriminate].
    destruct (embedding weight idx) as [rows'|e]; simpl in H; [| discriminate].
    injection H as <-. destruct (IH rows' eq_refl) as [-> F].
    apply andb_true_iff in E. destruct E as [E1 E2].
    apply Z.leb_le in E1. apply Z.ltb_lt in E2.
    split; [reflexivity | constructor; [lia | exact F]].
Qed.

Lemma length_concat_rows (c : nat) (rows : list (list R)) :
  Forall (fun r => length r = c) rows -> length (concat rows) = (length rows * c)%nat.
Proof.
  induction 1 as [|r rows Hr _ IH]; [reflexivity |].
  simpl. rewrite length_app, IH, Hr. lia.
Qed.

Lemma chunk_concat_rows (c : nat) (rows : list (list R)) (k : nat) :
  Forall (fun r => length r = c) rows -> (k < length rows)%nat ->
  firstn c (skipn (k * c) (concat rows)) = nth k rows [].
Proof.
  intro F. revert k. induction F as [|r rows Hr F IH]; intros k Hk; simpl in Hk; [lia |].
  destruct k as [|k]; simpl.
  - rewrite firstn_app, Hr, Nat.sub_diag, firstn_O, app_nil_r, <- Hr. apply firstn_all.
  - rewrite skipn_app, Hr. replace (c + k * c - c)%nat with (k * c)%nat by lia.
    rewrite skipn_all2 by lia. simpl. apply IH. lia.
Qed.

Lemma view3_ok (rows : list (list R)) (a b c : nat) (t : T3) :
  Forall (fun r => length r = c) rows -> length rows = (a * b)%nat ->
  view3 rows (Z.of_nat a) (Z.of_nat b) c = Ok t ->
  t3_last t = c /\ length (t3_data t) = a /\
  forall i, (i < a)%nat ->
    length (nth i (t3_data t) []) = b /\
    forall j, (j < b)%nat -> nth j (nth i (t3_data t) []) [] = nth (i * b + j) rows [].
Proof.
  intros F Hlen H. unfold view3 in H.
  destruct ((Z.of_nat a <? 0) || (Z.of_nat b <? 0))%Z; [discriminate |].
  destruct (Z.of_nat (length (concat rows)) =? Z.of_nat a * Z.of_nat b * Z.of_nat c)%Z;
    [| discriminate].
  injection H as <-. rewrite !Nat2Z.id. simpl.
  split; [reflexivity |]. split; [rewrite length_map, length_seq; reflexivity |].
  intros i Hi. rewrite (nth_map_lt _ _ _ 0%nat) by (rewrite length_seq; lia).
  rewrite seq_nth by lia. simpl.
  split; [rewrite length_map, length_seq; reflexivity |].
  intros j Hj. rewrite (nth_map_lt _ _ _ 0%nat) by (rewrite length_seq; lia).
  rewrite seq_nth by lia. simpl. apply chunk_concat_rows; [exact F |].
  rewrite Hlen. nia.
Qed.

Lemma In_multinomial_Ok (w : list R) (k : Z) (ws : list Z) (p : R) :
  In (Ok ws, p) (multinomial w k) ->
  length ws = Z.to_nat k /\ Forall (fun x => 0 <= x < Z.of_nat (length w))%Z ws.
Proof.
  unfold multinomial. intro H.
  destruct (k <=? 0)%Z; [destruct H as [H|[]]; discriminate |].
  destruct (2 ^ 24 <? Z.of_nat (length w))%Z; [destruct H as [H|[]]; discriminate |].
  destruct (negb _); [destruct H as [H|[]]; discriminate |].
  unfold dmap in H. apply in_map_iff in H. destruct H as ([ws' p'] & He & H).
  injection He as <- _. apply In_draws in H. destruct H as [Hl Hall].
  split; [exact Hl |]. apply Forall_forall. intros x Hx.
  destruct (Hall x Hx) as [q Hq]. eapply In_categorical, Hq.
Qed.

(** ** Claims on lookup, state and errors *)

(** The lookups of [forward_input] and [forward_output] on in-range indices. *)
Lemma forward_lookup_in_range (this : SkipGramNeg.self) (words : list Z) :
  length (SkipGramNeg.in_embed this) = SkipGramNeg.n_vocab this ->
  length (SkipGramNeg.out_embed this) = SkipGramNeg.n_vocab this ->
  Forall (fun i => 0 <= i < Z.of_nat (SkipGramNeg.n_vocab this))%Z words ->
  SkipGramNeg.forward_input words this
  = dret (Ok (map (fun i => nth (Z.to_nat i) (SkipGramNeg.in_embed this) []) words), this) /\
  SkipGramNeg.forward_output words this
  = dret (Ok (map (fun i => nth (Z.to_nat i) (SkipGramNeg.out_embed this) []) words), this).
Proof.
  intros Hin Hout F.
  unfold SkipGramNeg.forward_input, SkipGramNeg.forward_output, SkipGramNeg.mbind,
    SkipGramNeg.get, SkipGramNeg.lift, SkipGramNeg.mret.
  unfold dbind, dret. simpl. split.
  - rewrite (embedding_in_range (SkipGramNeg.in_embed this)) by (rewrite Hin; exact F).
    simpl. repeat f_equal; ring.
  - rewrite (embedding_in_range (SkipGramNeg.out_embed this)) by (rewrite Hout; exact F).
    simpl. repeat f_equal; ring.
Qed.

(** C5: for indices in [0, n_vocab) (with [n_vocab] rows in each table, as
    [__init__] builds them), [forward_input] returns the rows of
    [in_embed] at the indices and [forward_output] those of [out_embed],
    with probability 1 and the object unchanged. *)
Theorem forward_input_output_lookup (this : SkipGramNeg.self) (words : list Z) :
  length (SkipGramNeg.in_embed this) = SkipGramNeg.n_vocab this ->
  length (SkipGramNeg.out_embed this) = SkipGramNeg.n_vocab this ->
  Forall (fun i => 0 <= i < Z.of_nat (SkipGramNeg.n_vocab this))%Z words ->
  SkipGramNeg.forward_input words this
  = dret (Ok (map (fun i => nth (Z.to_nat i) (SkipGramNeg.in_embed this) []) words), this) /\
  SkipGramNeg.forward_output words this
  = dret (Ok (map (fun i => nth (Z.to_nat i) (SkipGramNeg.out_embed this) []) words), this).
Proof.
  intros Hin Hout F.
  unfold SkipGramNeg.forward_input, SkipGramNeg.forward_output, SkipGramNeg.mbind,
    SkipGramNeg.get, SkipGramNeg.lift, SkipGramNeg.mret.
  unfold dbind, dret. simpl. split.
  - rewrite (embedding_in_range (SkipGramNeg.in_embed this)) by (rewrite Hin; exact F).
    simpl. repeat f_equal; ring.
  - rewrite (embedding_in_range (SkipGramNeg.out_embed this)) by (rewrite Hout; exact F).
    simpl. repeat f_equal; ring.
Qed.

(** [m] leaves the module object as it found it, in every outcome. *)
Definition preserves {A} (m : SkipGramNeg.M A) : Prop :=
  forall s r s' p, In (r, s', p) (m s) -> s' = s.

Lemma preserves_get : preserves SkipGramNeg.get.
Proof. intros s r s' p [H|[]]. injection H; auto. Qed.

Lemma preserves_lift {A} (r : result A) : preserves (SkipGramNeg.lift r).
Proof. intros s r' s' p [H|[]]. injection H; auto. Qed.

Lemma preserves_mret {A} (a : A) : preserves (SkipGramNeg.mret a).
Proof. intros s r' s' p [H|[]]. injection H; auto. Qed.

Lemma preserves_sample {A} (d : Dist (result A)) : preserves (SkipGramNeg.sample d).
Proof.
  intros s r s' p H. unfold SkipGramNeg.sample, dmap in H.
  apply in_map_iff in H. destruct H as ([r0 p0] & He & _). injection He; auto.
Qed.

Lemma preserves_mbind {A B} (m : SkipGramNeg.M A) (f : A -> SkipGramNeg.M B) :
  preserves m -> (forall a, preserves (f a)) -> preserves (SkipGramNeg.mbind m f).
Proof.
  intros Hm Hf s r s' p H. unfold SkipGramNeg.mbind in H.
  apply In_dbind in H. destruct H as ([r1 s1] & p1 & q & H1 & H2 & _).
  apply Hm in H1. subst s1. destruct r1 as [a|e].
  - eapply Hf, H2.
  - destruct H2 as [H2|[]]. injection H2; auto.
Qed.

Create HintDb frame.
#[local] Hint Resolve preserves_get preserves_lift preserves_mret preserves_sample
  preserves_mbind : frame.

(** C7: none of [forward_input], [forward_output], [forward_noise] and the
    loss [forward] changes the module object: in every outcome, [n_vocab],
    [n_embed], [noise_dist], [in_embed] and [out_embed] are as before. *)
Theorem forward_ops_preserve_state
    (words : list Z) (batch_size n_samples : Z)
    (input_vectors output_vectors : list (list R)) (noise_vectors : T3) :
  preserves (SkipGramNeg.forward_input words) /\
  preserves (SkipGramNeg.forward_output words) /\
  preserves (SkipGramNeg.forward_noise batch_size n_samples) /\
  preserves (loss_forward_M input_vectors output_vectors noise_vectors).
Proof.
  unfold SkipGramNeg.forward_input, SkipGramNeg.forward_output,
    SkipGramNeg.forward_noise, loss_forward_M.
  repeat split; eauto 10 with frame.
Qed.

(** C10: [NegativeSamplingLoss.forward] is deterministic: whatever the
    state of the module object it runs next to, equal arguments give one
    outcome, with probability 1, the same result. *)
Theorem loss_forward_deterministic
    (input_vectors output_vectors : list (list R)) (noise_vectors : T3)
    (s1 s2 : SkipGramNeg.self) :
  exists r,
    loss_forward_M input_vectors output_vectors noise_vectors s1 = [(r, s1, 1)] /\
    loss_forward_M input_vectors output_vectors noise_vectors s2 = [(r, s2, 1)].
Proof.
  exists (NegativeSamplingLoss.forward input_vectors output_vectors noise_vectors).
  split; reflexivity.
Qed.

(** The object [__init__] builds: two tables of [n_vocab] rows of
    [n_embed] reals, and a noise distribution over the vocabulary. *)
Definition model_wf (this : SkipGramNeg.self) : Prop :=
  length (SkipGramNeg.in_embed this) = SkipGramNeg.n_vocab this /\
  length (SkipGramNeg.out_embed this) = SkipGramNeg.n_vocab this /\
  Forall (fun r => length r = SkipGramNeg.n_embed this) (SkipGramNeg.in_embed this) /\
  Forall (fun r => length r = SkipGramNeg.n_embed this) (SkipGramNeg.out_embed this) /\
  (forall d, SkipGramNeg.noise_dist this = Some d -> length d = SkipGramNeg.n_vocab this).

Lemma Rle0b_true (x : R) : 0 <= x -> Rle0b x = true.
Proof. intro H. unfold Rle0b. destruct (Rle_dec 0 x); [reflexivity | contradiction]. Qed.

Lemma Rlt0b_false (x : R) : x <= 0 -> Rlt0b x = false.
Proof. intro H. unfold Rlt0b. destruct (Rlt_dec 0 x); [lra | reflexivity]. Qed.

(** A model over two words whose noise distribution gives both weight 0. *)
Definition zero_noise_model : SkipGramNeg.self :=
  SkipGramNeg.mk_self 2 1 (Some [0; 0]) [[1]; [1]] [[1]; [1]].

Lemma zero_noise_model_wf : model_wf zero_noise_model.
Proof.
  repeat split; try reflexivity; repeat constructor.
  intros d H. injection H as <-. reflexivity.
Qed.

Lemma forward_noise_zero_noise :
  SkipGramNeg.forward_noise 1 1 zero_noise_model
  = [(Err InvalidDistribution, zero_noise_model, 1)].
Proof.
  rewrite forward_noise_split. unfold multinomial. cbn -[Rle0b Rlt0b].
  rewrite (Rle0b_true 0) by lra. rewrite (Rlt0b_false (0 + (0 + 0))) by lra.
  reflexivity.
Qed.

(** C6, as stated, fails: for a well-formed model, in-range sizes
    [batch_size = n_samples = 1] and a noise distribution of the right
    length, [forward_noise] fails with the sampler's error
    [InvalidDistribution], which is neither a shape mismatch nor an
    out-of-range index. *)
Lemma forward_noise_sampler_error :
  ~ (forall (this : SkipGramNeg.self) (batch_size n_samples : Z),
       model_wf this -> (1 <= batch_size)%Z -> (1 <= n_samples)%Z ->
       forall r s' p, In (r, s', p) (SkipGramNeg.forward_noise batch_size n_samples this) ->
       (exists t, r = Ok t) \/ r = Err ShapeMismatch \/ r = Err IndexOutOfRange).
Proof.
  intro H.
  specialize (H zero_noise_model 1%Z 1%Z zero_noise_model_wf ltac:(lia) ltac:(lia)
                (Err InvalidDistribution) zero_noise_model 1).
  rewrite forward_noise_zero_noise in H.
  destruct (H (or_introl eq_refl)) as [[t Ht]|[Ht|Ht]]; discriminate.
Qed.

Lemma In_multinomial_Err (w : list R) (k : Z) (e : torch_error) (p : R) :
  In (Err e, p) (multinomial w k) ->
  ((k <= 0)%Z /\ e = InvalidSampleCount) \/ e = TooManyCategories \/ e = InvalidDistribution.
Proof.
  unfold multinomial. intro H.
  destruct (k <=? 0)%Z eqn:E1;
    [destruct H as [H|[]]; injection H as <- _; left; split; [apply Z.leb_le, E1 | reflexivity] |].
  destruct (2 ^ 24 <? Z.of_nat (length w))%Z;
    [destruct H as [H|[]]; injection H as <- _; right; left; reflexivity |].
  destruct (negb _);
    [destruct H as [H|[]]; injection H as <- _; right; right; reflexivity |].
  unfold dmap in H. apply in_map_iff in H. destruct H as ([ws p'] & He & _). discriminate.
Qed.

Lemma noise_weights_length (this : SkipGramNeg.self) :
  model_wf this -> length (SkipGramNeg.noise_weights this) = SkipGramNeg.n_vocab this.
Proof.
  intros (_ & _ & _ & _ & Hd). unfold SkipGramNeg.noise_weights.
  destruct (SkipGramNeg.noise_dist this) as [d|] eqn:E.
  - apply Hd. reflexivity.
  - apply repeat_length.
Qed.

(** C8: [forward_noise batch_size n_samples] is the multinomial draw of
    [batch_size * n_samples] indices followed by a lookup that keeps the
    order of the draw: each draw [noise_words] gives, with its own
    probability, the tensor whose slice [b][s] is the row of [out_embed] at
    [noise_words[b * n_samples + s]]; every index drawn is a row of
    [out_embed], and every row has n_embed values. *)
Theorem forward_noise_layout (this : SkipGramNeg.self) (batch_size n_samples : nat) :
  model_wf this ->
  SkipGramNeg.forward_noise (Z.of_nat batch_size) (Z.of_nat n_samples) this
  = map (fun '(r, q) => (rbind r (fun noise_words =>
                           Ok (noise_layout this batch_size n_samples noise_words)), this, q))
        (multinomial (SkipGramNeg.noise_weights this)
                     (Z.of_nat batch_size * Z.of_nat n_samples)) /\
  (forall noise_words q,
     In (Ok noise_words, q)
        (multinomial (SkipGramNeg.noise_weights this) (Z.of_nat batch_size * Z.of_nat n_samples)) ->
     length noise_words = (batch_size * n_samples)%nat /\
     Forall (fun i => 0 <= i < Z.of_nat (length (SkipGramNeg.out_embed this)))%Z noise_words) /\
  Forall (fun r => length r = SkipGramNeg.n_embed this) (SkipGramNeg.out_embed this).
Proof.
  intro Hwf. pose proof Hwf as (_ & Hout & _ & Fout & _).
  assert (Hdraw : forall noise_words q,
     In (Ok noise_words, q)
        (multinomial (SkipGramNeg.noise_weights this) (Z.of_nat batch_size * Z.of_nat n_samples)) ->
     length noise_words = (batch_size * n_samples)%nat /\
     Forall (fun i => 0 <= i < Z.of_nat (length (SkipGramNeg.out_embed this)))%Z noise_words).
  { intros ws q Hin. destruct (In_multinomial_Ok _ _ _ _ Hin) as [Hlen F].
    rewrite <- Nat2Z.inj_mul, Nat2Z.id in Hlen.
    rewrite noise_weights_length, <- Hout in F by exact Hwf. split; assumption. }
  split; [| split; [exact Hdraw | exact Fout]].
  rewrite forward_noise_split. unfold dmap. apply map_ext_in. intros [r q] Hin.
  destruct r as [ws|e]; [| reflexivity]. simpl. do 2 f_equal.
  destruct (Hdraw ws q Hin) as [Hlen F].
  unfold noise_vectors_of. rewrite embedding_in_range by exact F. simpl.
  set (rows := map (fun i => nth (Z.to_nat i) (SkipGramNeg.out_embed this) []) ws).
  assert (Frows : Forall (fun r => length r = SkipGramNeg.n_embed this) rows).
  { unfold rows. apply Forall_map. rewrite Forall_forall in Fout, F |- *.
    intros x Hx. apply Fout, nth_In. specialize (F x Hx). lia. }
  assert (Lrows : length rows = (batch_size * n_samples)%nat)
    by (unfold rows; rewrite length_map; exact Hlen).
  unfold view3.
  replace ((Z.of_nat batch_size <? 0) || (Z.of_nat n_samples <? 0))%Z with false
    by (symmetry; apply orb_false_iff; split; apply Z.ltb_ge; lia).
  rewrite (length_concat_rows _ _ Frows), Lrows.
  replace (Z.of_nat (batch_size * n_samples * SkipGramNeg.n_embed this)
           =? Z.of_nat batch_size * Z.of_nat n_samples * Z.of_nat (SkipGramNeg.n_embed this))%Z
    with true by (symmetry; apply Z.eqb_eq; lia).
  unfold noise_layout. rewrite !Nat2Z.id. f_equal. f_equal.
  apply map_ext_in. intros b Hb. apply in_seq in Hb.
  apply map_ext_in. intros s Hs. apply in_seq in Hs.
  rewrite chunk_concat_rows by (exact Frows || (rewrite Lrows; nia)).
  unfold rows. rewrite (nth_map_lt _ _ _ 0%Z) by (rewrite Hlen; nia). reflexivity.
Qed.

Lemma noise_vectors_of_ok (this : SkipGramNeg.self) (batch_size n_samples : nat) (ws : list Z) :
  model_wf this -> length ws = (batch_size * n_samples)%nat ->
  Forall (fun x => 0 <= x < Z.of_nat (SkipGramNeg.n_vocab this))%Z ws ->
  exists t, noise_vectors_of this (Z.of_nat batch_size) (Z.of_nat n_samples) ws = Ok t.
Proof.
  intros Hwf Hlen F. pose proof Hwf as (_ & Hout & _ & Fout & _).
  unfold noise_vectors_of. rewrite embedding_in_range by (rewrite Hout; exact F).
  simpl. unfold view3.
  replace ((Z.of_nat batch_size <? 0) || (Z.of_nat n_samples <? 0))%Z with false
    by (symmetry; apply orb_false_iff; split; apply Z.ltb_ge; lia).
  rewrite (length_concat_rows (SkipGramNeg.n_embed this)).
  - rewrite length_map, Hlen, Nat2Z.inj_mul, Nat2Z.inj_mul, Z.eqb_refl. eexists. reflexivity.
  - apply Forall_map. rewrite Forall_forall in Fout, F |- *. intros x Hx.
    apply Fout, nth_In. specialize (F x Hx). lia.
Qed.

(** C6 (amended): the module raises and handles no error of its own; every
    failure is one of the numeric library.  For a well-formed model:
    [forward_input] and [forward_output] succeed on indices in
    [0, n_vocab); [forward_noise] with [batch_size, n_samples >= 1] fails
    only with a rejection of the noise distribution by [torch.multinomial]
    (more than 2^24 categories, a negative entry or a zero sum), and
    succeeds when the distribution passes those checks; the loss
    [forward] succeeds on inputs of shapes (B, E), (B, E), (B, n, E). *)
Theorem forward_errors_from_library (this : SkipGramNeg.self) :
  model_wf this ->
  (forall words, Forall (fun i => 0 <= i < Z.of_nat (SkipGramNeg.n_vocab this))%Z words ->
     forall r s' p, In (r, s', p) (SkipGramNeg.forward_input words this) -> exists v, r = Ok v) /\
  (forall words, Forall (fun i => 0 <= i < Z.of_nat (SkipGramNeg.n_vocab this))%Z words ->
     forall r s' p, In (r, s', p) (SkipGramNeg.forward_output words this) -> exists v, r = Ok v) /\
  (forall batch_size n_samples : nat, (1 <= batch_size)%nat -> (1 <= n_samples)%nat ->
     forall r s' p,
       In (r, s', p) (SkipGramNeg.forward_noise (Z.of_nat batch_size) (Z.of_nat n_samples) this) ->
       ((exists t, r = Ok t) \/ r = Err TooManyCategories \/ r = Err InvalidDistribution) /\
       (valid_weights (SkipGramNeg.noise_weights this) -> exists t, r = Ok t)) /\
  (forall B E input_vectors output_vectors noise_vectors,
     loss_shapes B E input_vectors output_vectors noise_vectors ->
     exists v, NegativeSamplingLoss.forward input_vectors output_vectors noise_vectors = Ok v).
Proof.
  intro Hwf. pose proof Hwf as (Hin & Hout & _).
  split; [| split; [| split]].
  - intros words F r s' p H.
    rewrite (proj1 (forward_lookup_in_range this words Hin Hout F)) in H.
    destruct H as [H|[]]. injection H as <- _ _. eexists; reflexivity.
  - intros words F r s' p H.
    rewrite (proj2 (forward_lookup_in_range this words Hin Hout F)) in H.
    destruct H as [H|[]]. injection H as <- _ _. eexists; reflexivity.
  - intros bs ns Hbs Hns r s' p H.
    rewrite forward_noise_split in H. unfold dmap in H. apply in_map_iff in H.
    destruct H as ([r0 q] & He & Hin0). injection He as <- _ _.
    destruct r0 as [ws|e].
    + destruct (In_multinomial_Ok _ _ _ _ Hin0) as [Hlen F].
      rewrite <- Nat2Z.inj_mul, Nat2Z.id in Hlen. rewrite noise_weights_length in F by exact Hwf.
      destruct (noise_vectors_of_ok this bs ns ws Hwf Hlen F) as [t Ht].
      simpl. rewrite Ht. split; [left |]; eauto.
    + simpl. destruct (In_multinomial_Err _ _ _ _ Hin0) as [[Hk _]|[-> | ->]].
      * lia.
      * split; [right; left; reflexivity |].
        intro Hv. rewrite multinomial_valid in Hin0 by (try lia; exact Hv).
        exfalso. unfold dmap in Hin0. apply in_map_iff in Hin0.
        destruct Hin0 as ([? ?] & He & _). discriminate.
      * split; [right; right; reflexivity |].
        intro Hv. rewrite multinomial_valid in Hin0 by (try lia; exact Hv).
        exfalso. unfold dmap in Hin0. apply in_map_iff in Hin0.
        destruct Hin0 as ([? ?] & He & _). discriminate.
  - intros B E i o n Hs. eexists.
    apply (forward_from_scores _ _ _ B _ _ (pos_scores_dot B E _ _ n Hs)
             (neg_scores_dot B E _ o _ Hs));
      rewrite length_map, length_seq; reflexivity.
Qed.

(** ** Concrete instances *)

Definition ex_input : list (list R) := [[1; 2]].
Definition ex_output : list (list R) := [[3; 4]].
Definition ex_noise : T3 := mkT3 2 [[[5; 6]; [7; 8]]].

Lemma ex_shapes : loss_shapes 1 2 ex_input ex_output ex_noise.
Proof. repeat split; repeat constructor. Qed.

(** A model over two words, with the default (uniform) noise distribution. *)
Definition ex_model : SkipGramNeg.self :=
  SkipGramNeg.mk_self 2 1 None [[1]; [2]] [[3]; [4]].

Lemma ex_model_wf : model_wf ex_model.
Proof. repeat split; repeat constructor. intros d H. discriminate. Qed.

Lemma ex_model_valid : valid_weights (SkipGramNeg.noise_weights ex_model).
Proof.
  unfold valid_weights. simpl. split; [repeat constructor; lra | split; [lra | lia]].
Qed.

Lemma loss_closed_form_witness :
  (1 <= 1)%nat /\ loss_shapes 1 2 ex_input ex_output ex_noise /\
  NegativeSamplingLoss.forward ex_input ex_output ex_noise
  = Ok (ns_loss_closed ex_input ex_output (t3_data ex_noise)).
Proof.
  split; [lia |]. split; [exact ex_shapes |].
  apply (loss_closed_form 1 2); [lia | exact ex_shapes].
Defined.

Lemma loss_scores_and_signs_witness :
  loss_shapes 1 2 ex_input ex_output ex_noise /\
  exists ps ns,
    NegativeSamplingLoss.pos_scores_of ex_input ex_output = Ok ps /\
    NegativeSamplingLoss.neg_scores_of ex_noise ex_input = Ok ns /\
    nth 0 ps 0 = dot [1; 2] [3; 4] /\
    nth 1 (nth 0 ns []) 0 = dot [7; 8] [1; 2].
Proof.
  split; [exact ex_shapes |].
  destruct (loss_scores_and_signs 1 2 ex_input ex_output ex_noise ex_shapes)
    as (ps & ns & Hp & Hn & _ & _ & Hb & _).
  exists ps, ns. split; [exact Hp |]. split; [exact Hn |].
  destruct (Hb 0%nat ltac:(lia)) as (H0 & _ & Hs).
  split; [exact H0 |]. apply (Hs 1%nat). simpl. lia.
Defined.

Lemma forward_noise_draws_with_replacement_witness :
  (0 < 1 * 2)%Z /\ valid_weights (SkipGramNeg.noise_weights ex_model) /\
  mass res_dec (multinomial (SkipGramNeg.noise_weights ex_model) (1 * 2)) (Ok [0%Z; 1%Z])
  = / 4.
Proof.
  split; [lia |]. split; [exact ex_model_valid |].
  rewrite (proj2 (forward_noise_draws_with_replacement ex_model 1 2 ltac:(lia) ex_model_valid)).
  simpl. field.
Defined.

Lemma forward_noise_uniform_default_witness :
  SkipGramNeg.noise_dist ex_model = None /\ (1 <= SkipGramNeg.n_vocab ex_model)%nat /\
  (Z.of_nat (SkipGramNeg.n_vocab ex_model) <= 2 ^ 24)%Z /\ (0 < 1 * 2)%Z /\
  mass res_dec (multinomial (ones 2) (1 * 2)) (Ok [1%Z; 1%Z]) = (/ 2) ^ 2.
Proof.
  split; [reflexivity |]. split; [simpl; lia |]. split; [simpl; lia |]. split; [lia |].
  destruct (forward_noise_uniform_default ex_model 1 2 eq_refl ltac:(simpl; lia)
              ltac:(simpl; lia) ltac:(lia)) as (_ & _ & H).
  replace 2 with (INR (SkipGramNeg.n_vocab ex_model)) at 2 by (simpl; ring).
  apply H; [reflexivity | repeat constructor; simpl; lia].
Defined.

Lemma forward_input_output_lookup_witness :
  SkipGramNeg.forward_input [1%Z; 0%Z] ex_model = dret (Ok [[2]; [1]], ex_model) /\
  SkipGramNeg.forward_output [1%Z; 0%Z] ex_model = dret (Ok [[4]; [3]], ex_model).
Proof.
  destruct (forward_input_output_lookup ex_model [1%Z; 0%Z] eq_refl eq_refl
              ltac:(repeat constructor; simpl; lia)) as [H1 H2].
  rewrite H1, H2. split; reflexivity.
Defined.

Lemma forward_noise_layout_witness :
  model_wf ex_model /\
  SkipGramNeg.forward_noise (Z.of_nat 1) (Z.of_nat 2) ex_model
  = [(Ok (mkT3 1 [[[3]; [3]]]), ex_model, / 2 * (/ 2 * 1));
     (Ok (mkT3 1 [[[3]; [4]]]), ex_model, / 2 * (/ 2 * 1));
     (Ok (mkT3 1 [[[4]; [3]]]), ex_model, / 2 * (/ 2 * 1));
     (Ok (mkT3 1 [[[4]; [4]]]), ex_model, / 2 * (/ 2 * 1))].
Proof.
  split; [exact ex_model_wf |].
  destruct (forward_noise_layout ex_model 1 2 ex_model_wf) as [H _]. rewrite H.
  rewrite multinomial_valid by (exact ex_model_valid || simpl; lia).
  simpl. unfold noise_layout. simpl. repeat f_equal; unfold Rdiv; simpl; field.
Defined.

Lemma forward_errors_from_library_witness :
  model_wf ex_model /\
  exists v, NegativeSamplingLoss.forward ex_input ex_output ex_noise = Ok v.
Proof.
  split; [exact ex_model_wf |].
  destruct (forward_errors_from_library ex_model ex_model_wf) as (_ & _ & _ & H).
  apply (H 1%nat 2%nat), ex_shapes.
Defined.

(** ** Further properties of the module *)

Lemma embedding_out_of_range (weight : list (list R)) (idx : list Z) (i : Z) :
  In i idx -> ~ (0 <= i < Z.of_nat (length weight))%Z ->
  embedding weight idx = Err IndexOutOfRange.
Proof.
  induction idx as [|j idx IH]; intros Hi Hr; [destruct Hi |]. simpl.
  destruct ((0 <=? j) && (j <? Z.of_nat (length weight)))%Z eqn:E; [| reflexivity].
  destruct Hi as [<-|Hi].
  - apply andb_true_iff in E. destruct E as [E1 E2].
    apply Z.leb_le in E1. apply Z.ltb_lt in E2. exfalso. apply Hr. lia.
  - rewrite (IH Hi Hr). reflexivity.
Qed.

(** [forward_input] and [forward_output] fail as soon as one index lies
    outside the table: the library's [IndexOutOfRange], with probability 1,
    whatever the other indices are. *)
Theorem forward_lookup_out_of_range (this : SkipGramNeg.self) (words : list Z) (i : Z) :
  In i words ->
  ~ (0 <= i < Z.of_nat (length (SkipGramNeg.in_embed this)))%Z ->
  ~ (0 <= i < Z.of_nat (length (SkipGramNeg.out_embed this)))%Z ->
  SkipGramNeg.forward_input words this = dret (Err IndexOutOfRange, this) /\
  SkipGramNeg.forward_output words this = dret (Err IndexOutOfRange, this).
Proof.
  intros Hi Hin Hout.
  unfold SkipGramNeg.forward_input, SkipGramNeg.forward_output, SkipGramNeg.mbind,
    SkipGramNeg.get, SkipGramNeg.lift, SkipGramNeg.mret.
  unfold dbind, dret. simpl. split.
  - rewrite (embedding_out_of_range _ _ i Hi Hin). simpl. repeat f_equal; ring.
  - rewrite (embedding_out_of_range _ _ i Hi Hout). simpl. repeat f_equal; ring.
Qed.

Lemma forward_lookup_out_of_range_witness :
  In 2%Z [0%Z; 2%Z] /\
  SkipGramNeg.forward_input [0%Z; 2%Z] ex_model = dret (Err IndexOutOfRange, ex_model).
Proof.
  split; [simpl; auto |].
  apply (forward_lookup_out_of_range ex_model [0%Z; 2%Z] 2%Z); [simpl; auto | simpl; lia | simpl; lia].
Defined.

(** [forward_noise] with [batch_size * n_samples <= 0] (an empty batch,
    say) draws nothing: [torch.multinomial] refuses the sample count, with
    probability 1. *)
Theorem forward_noise_no_samples (this : SkipGramNeg.self) (batch_size n_samples : Z) :
  (batch_size * n_samples <= 0)%Z ->
  SkipGramNeg.forward_noise batch_size n_samples this = [(Err InvalidSampleCount, this, 1)].
Proof.
  intro Hk. rewrite forward_noise_split. unfold multinomial.
  replace (batch_size * n_samples <=? 0)%Z with true by (symmetry; apply Z.leb_le; exact Hk).
  reflexivity.
Qed.

Lemma forward_noise_no_samples_witness :
  (0 * 5 <= 0)%Z /\
  SkipGramNeg.forward_noise 0 5 ex_model = [(Err InvalidSampleCount, ex_model, 1)].
Proof. split; [lia | apply forward_noise_no_samples; lia]. Defined.

(** A model over an empty vocabulary built with [noise_dist = None] cannot
    draw noise words: [torch.ones(0)] has no positive weight, and
    [forward_noise] fails with the sampler's distribution error. *)
Theorem forward_noise_empty_vocab (this : SkipGramNeg.self) (batch_size n_samples : Z) :
  SkipGramNeg.noise_dist this = None -> SkipGramNeg.n_vocab this = 0%nat ->
  (0 < batch_size * n_samples)%Z ->
  SkipGramNeg.forward_noise batch_size n_samples this = [(Err InvalidDistribution, this, 1)].
Proof.
  intros Hnd Hv Hk. rewrite forward_noise_split. unfold SkipGramNeg.noise_weights.
  rewrite Hnd, Hv. unfold multinomial.
  replace (batch_size * n_samples <=? 0)%Z with false by (symmetry; apply Z.leb_gt; exact Hk).
  simpl. rewrite (Rlt0b_false 0) by lra. reflexivity.
Qed.

Lemma forward_noise_empty_vocab_witness :
  SkipGramNeg.forward_noise 1 1 (SkipGramNeg.mk_self 0 3 None [] [])
  = [(Err InvalidDistribution, SkipGramNeg.mk_self 0 3 None [] [], 1)].
Proof. apply forward_noise_empty_vocab; [reflexivity | reflexivity | lia]. Defined.


Lemma prod_list_zero (l : list R) : In 0 l -> prod_list l = 0.
Proof.
  induction l as [|x l IH]; intro H; [destruct H |].
  destruct H as [->|H]; unfold prod_list in *; simpl; [ring |].
  rewrite IH by exact H. ring.
Qed.

(** [forward_noise] never draws a word whose noise weight is 0, nor an
    index outside the distribution: every sequence of indices containing
    one has probability 0. *)
Theorem forward_noise_skips_zero_weight (this : SkipGramNeg.self) (batch_size n_samples : Z)
    (noise_words : list Z) (x : Z) :
  (0 < batch_size * n_samples)%Z ->
  valid_weights (SkipGramNeg.noise_weights this) ->
  In x noise_words ->
  (~ (0 <= x < Z.of_nat (length (SkipGramNeg.noise_weights this)))%Z
   \/ nth (Z.to_nat x) (SkipGramNeg.noise_weights this) 0 = 0) ->
  mass res_dec (multinomial (SkipGramNeg.noise_weights this) (batch_size * n_samples))
       (Ok noise_words) = 0.
Proof.
  intros Hk Hv Hx Hz. rewrite mass_multinomial by assumption.
  rewrite prod_list_zero; [ring |]. apply in_map_iff. exists x. split; [| exact Hx].
  destruct ((0 <=? x) && (x <? Z.of_nat (length (SkipGramNeg.noise_weights this))))%Z eqn:E;
    [| reflexivity].
  apply andb_true_iff in E. destruct E as [E1 E2]. apply Z.leb_le in E1. apply Z.ltb_lt in E2.
  destruct Hz as [Hz|Hz]; [exfalso; lia | rewrite Hz; unfold Rdiv; ring].
Qed.

Lemma forward_noise_skips_zero_weight_witness :
  (0 < 1 * 2)%Z /\
  mass res_dec (multinomial (SkipGramNeg.noise_weights
                               (SkipGramNeg.mk_self 2 1 (Some [1; 0]) [[1]; [2]] [[3]; [4]]))
                            (1 * 2))
       (Ok [0%Z; 1%Z]) = 0.
Proof.
  split; [lia |].
  apply (forward_noise_skips_zero_weight _ 1 2 _ 1%Z); [lia | | simpl; auto | right; reflexivity].
  unfold valid_weights. simpl. split; [repeat constructor; lra | split; [lra | lia]].
Defined.



Lemma forward_eq_closed (B E : nat) (input_vectors output_vectors : list (list R))
    (noise_vectors : T3) :
  loss_shapes B E input_vectors output_vectors noise_vectors ->
  NegativeSamplingLoss.forward input_vectors output_vectors noise_vectors
  = Ok (ns_loss_closed input_vectors output_vectors (t3_data noise_vectors)).
Proof.
  intro Hs.
  rewrite (forward_from_scores _ _ _ B _ _ (pos_scores_dot B E _ _ noise_vectors Hs)
             (neg_scores_dot B E _ output_vectors _ Hs))
    by (rewrite length_map, length_seq; reflexivity).
  unfold ns_loss_closed. destruct Hs as (Hi & _). rewrite Hi.
  do 3 f_equal. apply map_ext_in. intros b Hb. apply in_seq in Hb.
  rewrite (nth_map_lt _ _ _ 0%nat) by (rewrite length_seq; lia).
  rewrite (nth_map_lt _ _ _ 0%nat []) by (rewrite length_seq; lia).
  rewrite seq_nth by lia. simpl. rewrite map_map. reflexivity.
Qed.








Lemma noise_outcome_shapes (this : SkipGramNeg.self) (batch_size n_samples : nat)
    (t : T3) (s' : SkipGramNeg.self) (p : R) :
  Forall (fun r => length r = SkipGramNeg.n_embed this) (SkipGramNeg.out_embed this) ->
  In (Ok t, s', p) (SkipGramNeg.forward_noise (Z.of_nat batch_size) (Z.of_nat n_samples) this) ->
  t3_last t = SkipGramNeg.n_embed this /\ length (t3_data t) = batch_size /\
  Forall (fun m => length m = n_samples /\
                   Forall (fun r => length r = SkipGramNeg.n_embed this) m) (t3_data t).
Proof.
  intros Fout H.
  rewrite forward_noise_split in H. unfold dmap in H. apply in_map_iff in H.
  destruct H as ([r q] & He & Hin). injection He as Hr _ _.
  destruct r as [ws|e]; simpl in Hr; [| discriminate].
  destruct (In_multinomial_Ok _ _ _ _ Hin) as [Hlen _].
  rewrite <- Nat2Z.inj_mul, Nat2Z.id in Hlen.
  unfold noise_vectors_of in Hr.
  destruct (embedding (SkipGramNeg.out_embed this) ws) as [rows|e] eqn:Em; simpl in Hr;
    [| discriminate].
  destruct (embedding_ok _ _ _ Em) as [Hrows Hrange].
  assert (Frows : Forall (fun r => length r = SkipGramNeg.n_embed this) rows).
  { rewrite Hrows. apply Forall_map. rewrite Forall_forall in Fout |- *.
    intros x Hx. apply Fout, nth_In. rewrite Forall_forall in Hrange.
    specialize (Hrange x Hx). lia. }
  assert (Lrows : length rows = (batch_size * n_samples)%nat)
    by (rewrite Hrows, length_map; exact Hlen).
  destruct (view3_ok _ _ _ _ _ Frows Lrows Hr) as (Hlast & Hdata & Hij).
  split; [exact Hlast |]. split; [exact Hdata |].
  apply (Forall_nth _ _). intros b d Hb. rewrite (nth_indep _ d []) by exact Hb.
  rewrite Hdata in Hb. destruct (Hij b Hb) as [Hl Hj]. split; [exact Hl |].
  apply (Forall_nth _ _). intros s d' Hs. rewrite (nth_indep _ d' []) by exact Hs.
  rewrite Hl in Hs. rewrite (Hj s Hs). rewrite Forall_forall in Frows. apply Frows, nth_In.
  rewrite Lrows. nia.
Qed.

(** The operations compose as a training step uses them: for a
    well-formed model and B in-range input and context words, the input
    and output lookups succeed, and every noise tensor [forward_noise B n]
    returns fits them, so [NegativeSamplingLoss.forward] returns a loss
    and raises no shape error. *)
Theorem training_step_composes (this : SkipGramNeg.self) (input_words output_words : list Z)
    (B n_samples : nat) :
  model_wf this ->
  length input_words = B -> length output_words = B ->
  Forall (fun i => 0 <= i < Z.of_nat (SkipGramNeg.n_vocab this))%Z input_words ->
  Forall (fun i => 0 <= i < Z.of_nat (SkipGramNeg.n_vocab this))%Z output_words ->
  exists input_vectors output_vectors,
    SkipGramNeg.forward_input input_words this = dret (Ok input_vectors, this) /\
    SkipGramNeg.forward_output output_words this = dret (Ok output_vectors, this) /\
    forall t s' p,
      In (Ok t, s', p) (SkipGramNeg.forward_noise (Z.of_nat B) (Z.of_nat n_samples) this) ->
      exists v, NegativeSamplingLoss.forward input_vectors output_vectors t = Ok v.
Proof.
  intros Hwf Li Lo Fi Fo. pose proof Hwf as (Hin & Hout & Fin & Fout & _).
  eexists; eexists. split; [apply (proj1 (forward_lookup_in_range this _ Hin Hout Fi)) |].
  split; [apply (proj2 (forward_lookup_in_range this _ Hin Hout Fo)) |].
  intros t s' p H. destruct (noise_outcome_shapes _ _ _ _ _ _ Fout H) as (Hl & Hd & Ft).
  assert (Rows : forall (W : list (list R)) (ws : list Z),
            length W = SkipGramNeg.n_vocab this ->
            Forall (fun r => length r = SkipGramNeg.n_embed this) W ->
            Forall (fun i => 0 <= i < Z.of_nat (SkipGramNeg.n_vocab this))%Z ws ->
            Forall (fun r => length r = SkipGramNeg.n_embed this)
                   (map (fun i => nth (Z.to_nat i) W []) ws)).
  { intros W ws LW FW Fws. apply Forall_map. rewrite Forall_forall in FW, Fws |- *.
    intros x Hx. apply FW, nth_In. specialize (Fws x Hx). lia. }
  eexists. apply (forward_eq_closed B (SkipGramNeg.n_embed this)).
  repeat split.
  - rewrite length_map. exact Li.
  - rewrite length_map. exact Lo.
  - apply Rows; assumption.
  - apply Rows; assumption.
  - exact Hl.
  - exact Hd.
  - rewrite Forall_forall in Ft |- *. intros m Hm. apply (Ft m Hm).
Qed.

Lemma training_step_composes_witness :
  model_wf ex_model /\
  exists input_vectors output_vectors,
    SkipGramNeg.forward_input [1%Z] ex_model = dret (Ok input_vectors, ex_model) /\
    SkipGramNeg.forward_output [0%Z] ex_model = dret (Ok output_vectors, ex_model).
Proof.
  split; [exact ex_model_wf |].
  destruct (training_step_composes ex_model [1%Z] [0%Z] 1 2 ex_model_wf eq_refl eq_refl
              ltac:(repeat constructor; simpl; lia) ltac:(repeat constructor; simpl; lia))
    as (iv & ov & H1 & H2 & _).
  exists iv, ov. split; assumption.
Defined.
